(** * The Hardhat tutorial Token contract: a shallow embedding and its ledger properties

    The contract of the tutorial (contracts/Token.sol, Solidity ^0.8.0):

      contract Token {
          string public name = "Hardhat Token";
          string public symbol = "HHT";
          uint public totalSupply = 1000;
          mapping(address => uint) public balances;
          constructor() { balances[msg.sender] = totalSupply; }
          function transfer(address to, uint amount) external {
              require(balances[msg.sender] >= amount, "Not enough tokens!");
              balances[msg.sender] -= amount;
              balances[to] += amount;
          }
          function balanceOf(address account) public view returns (uint) {
              return balances[account];
          }
      }

    Contract storage is a record; the mapping is a finite map in which a
    missing key reads as zero.  Function bodies are written in a small
    state-and-revert monad, statement by statement.  [uint] is a 256-bit
    unsigned integer carried by [Z]; since Solidity 0.8 the operators [+] and
    [-] are checked and revert with [Panic(0x11)] instead of wrapping. *)

From Stdlib Require Import ZArith Lia.
From stdpp Require Import gmap strings.

Local Open Scope Z_scope.

(** ** Values *)

(** An [address] is an opaque identity: only equality and hashing are used. *)
Abbreviation address := N (only parsing).

Definition uint_max : Z := 2 ^ 256 - 1.

Definition is_uint (z : Z) : Prop := 0 <= z <= uint_max.

Global Instance is_uint_dec z : Decision (is_uint z) :=
  and_dec (decide (0 <= z)) (decide (z <= uint_max)).

(** ** Storage *)

Record Storage : Type := mkStorage {
  name : string;
  symbol : string;
  totalSupply : Z;
  balances : gmap N Z
}.

Definition set_balances (f : gmap N Z -> gmap N Z) (st : Storage) : Storage :=
  {| name := name st; symbol := symbol st; totalSupply := totalSupply st;
     balances := f (balances st) |}.

(** Reading a mapping slot: an absent key is the zero value. *)
Definition slot (m : gmap N Z) (a : address) : Z := default 0 (m !! a).

(** The sum of every stored balance. *)
Definition sum_balances (m : gmap N Z) : Z :=
  map_fold (fun _ v acc => v + acc) 0 m.

(** Every stored balance is a [uint], as the storage type says. *)
Definition wf_storage (st : Storage) : Prop :=
  map_Forall (fun _ v => is_uint v) (balances st).

(** ** Execution monad *)

Inductive revert_reason : Type :=
  | Error (reason : string)   (* require(cond, reason) *)
  | Panic (code : Z).         (* 0x11: arithmetic overflow or underflow *)

(** A body either runs to its end with a value and the storage it wrote, or
    stops at a revert; [Revert] keeps the storage as it was at that point, so
    that what had been written before the failure stays visible. *)
Inductive outcome (A : Type) : Type :=
  | Success (a : A) (st : Storage)
  | Revert (r : revert_reason) (st : Storage).
Arguments Success {A} a st.
Arguments Revert {A} r st.

Definition exec (A : Type) : Type := Storage -> outcome A.

Global Instance exec_ret : MRet exec := fun A a st => Success a st.

Global Instance exec_bind : MBind exec := fun A B k m st =>
  match m st with
  | Success a st' => k a st'
  | Revert r st' => Revert r st'
  end.

Definition revert {A} (r : revert_reason) : exec A := fun st => Revert r st.

Definition require (cond : bool) (reason : string) : exec unit :=
  if cond then mret tt else revert (Error reason).

Definition arithmetic_panic : revert_reason := Panic 0x11.

Definition checked_add (x y : Z) : exec Z :=
  if uint_max <? x + y then revert arithmetic_panic else mret (x + y).

Definition checked_sub (x y : Z) : exec Z :=
  if x <? y then revert arithmetic_panic else mret (x - y).

Definition read_totalSupply : exec Z := fun st => Success (totalSupply st) st.

Definition read_balances (a : address) : exec Z :=
  fun st => Success (slot (balances st) a) st.

Definition write_balances (a : address) (v : Z) : exec unit :=
  fun st => Success tt (set_balances (insert a v) st).

(** ** The contract *)

(** State variable initialisers, run before the constructor body. *)
Definition initial_storage : Storage :=
  {| name := "Hardhat Token"; symbol := "HHT"; totalSupply := 1000;
     balances := ∅ |}.

(** [constructor() { balances[msg.sender] = totalSupply; }] *)
Definition constructor (msg_sender : address) : exec unit :=
  supply ← read_totalSupply;
  write_balances msg_sender supply.

(** [function transfer(address to, uint amount) external] *)
Definition transfer (msg_sender to : address) (amount : Z) : exec unit :=
  held ← read_balances msg_sender;
  require (held >=? amount) "Not enough tokens!";;
  debit ← read_balances msg_sender;
  debited ← checked_sub debit amount;
  write_balances msg_sender debited;;
  credit ← read_balances to;
  credited ← checked_add credit amount;
  write_balances to credited.

(** [function balanceOf(address account) public view returns (uint)] *)
Definition balanceOf (account : address) : exec Z :=
  read_balances account.

(** The one domain error of the ledger: the revert of the [require]. *)
Definition InsufficientBalance : revert_reason := Error "Not enough tokens!".

(** ** Calls and transactions *)

Inductive receipt (A : Type) : Type :=
  | Returned (a : A)
  | Reverted (r : revert_reason).
Arguments Returned {A} a.
Arguments Reverted {A} r.

(** A message call: a revert discards whatever the body wrote. *)
Definition call {A} (body : exec A) (st : Storage) : receipt A * Storage :=
  match body st with
  | Success a st' => (Returned a, st')
  | Revert r _ => (Reverted r, st)
  end.

(** Deployment runs the initialisers, then the constructor. *)
Definition deploy (creator : address) : Storage :=
  (call (constructor creator) initial_storage).2.

Inductive tx : Type :=
  | TxTransfer (msg_sender to : address) (amount : Z)
  | TxBalanceOf (account : address).

(** The ABI decoder only lets a [uint] through as an amount. *)
Definition wf_tx (t : tx) : Prop :=
  match t with
  | TxTransfer _ _ amount => is_uint amount
  | TxBalanceOf _ => True
  end.

Global Instance wf_tx_dec t : Decision (wf_tx t) :=
  match t with
  | TxTransfer _ _ amount => is_uint_dec amount
  | TxBalanceOf _ => True_dec
  end.

Definition exec_tx (st : Storage) (t : tx) : Storage :=
  match t with
  | TxTransfer msg_sender to amount => (call (transfer msg_sender to amount) st).2
  | TxBalanceOf account => (call (balanceOf account) st).2
  end.

Definition run (txs : list tx) (st : Storage) : Storage :=
  foldl exec_tx st txs.

(** The ledger states: a deployment followed by any calls. *)
Inductive reachable (creator : address) : Storage -> Prop :=
  | reachable_deploy : reachable creator (deploy creator)
  | reachable_tx st t :
      reachable creator st -> wf_tx t -> reachable creator (exec_tx st t).

(** The storage after the debit statement, and after the credit statement. *)
Definition after_debit (st : Storage) (from : address) (amount : Z) : Storage :=
  set_balances (insert from (slot (balances st) from - amount)) st.

Definition after_credit (st : Storage) (to : address) (amount : Z) : Storage :=
  set_balances (insert to (slot (balances st) to + amount)) st.

(** What every ledger state satisfies (see [reachable_inv]). *)
Definition ledger_inv (st : Storage) : Prop :=
  wf_storage st /\
  sum_balances (balances st) = totalSupply st /\
  totalSupply st = 1000.

(** Hardhat's first three default signers. *)
Definition owner : address := 0xf39Fd6e51aad88F6F4ce6aB8827279cffFb92266%N.
Definition addr1 : address := 0x70997970C51812dc3A010C7d01b50e0d17dc79C8%N.
Definition addr2 : address := 0x3C44CdDdB6a900fa2b585dd299e03d12FA4293BC%N.

(** ** The generated getters

    [public] on a state variable makes the compiler generate an external view
    function of the same name: [name()], [symbol()], [totalSupply()] and
    [balances(address)]. *)

Definition get_name : exec string := fun st => Success (name st) st.

Definition get_symbol : exec string := fun st => Success (symbol st) st.

Definition get_totalSupply : exec Z := read_totalSupply.

Definition get_balances (account : address) : exec Z := read_balances account.

(** [t] is a transfer that names [a] as its recipient. *)
Definition pays (a : address) (t : tx) : Prop :=
  match t with
  | TxTransfer _ to _ => to = a
  | TxBalanceOf _ => False
  end.

Global Instance pays_dec a t : Decision (pays a t) :=
  match t with
  | TxTransfer _ to _ => decide (to = a)
  | TxBalanceOf _ => False_dec
  end.

(** ** The deploy scripts

    scripts/deploy.js:

      async function main() {
        const [deployer] = await ethers.getSighners();
        const Token = await ethers.getContractFactory("Token");
        const hardhatToken = await Token.deploy();
        console.log("Contract address: ", hardhatToken.address);
      }
      main()
        .then(() => process.exit(0))
        .catch((error) => { console.error(error); process.exit(1); });

    and the script of the tutorial text, which requires [ethers] from
    "hardhat", has no first line in [main], logs "Token deployed to:" and ends
    in [main().catch((error) => { console.error(error); process.exitCode = 1; })].

    The scripts run against the [ethers] object of the Hardhat runtime, which
    is not part of this code: it is a parameter.  What each awaited call
    settles to is given by the environment; what the script does with it is
    recorded as a trace of effects. *)

Module DeployScript.

Inductive js_error : Type :=
  | ReferenceError (identifier : string)  (* the identifier is not defined *)
  | NotAFunction (callee : string)        (* TypeError: callee is not a function *)
  | PropertyOfUndefined (prop : string)   (* TypeError: reading prop of undefined *)
  | Rejection (reason : string).          (* a promise rejected by the library *)

Global Instance js_error_eq_dec : EqDecision js_error.
Proof. solve_decision. Defined.

Inductive settled (A : Type) : Type :=
  | Fulfilled (a : A)
  | Rejected (e : js_error).
Arguments Fulfilled {A} a.
Arguments Rejected {A} e.

(** The object [Token.deploy()] resolves to; only [.address] is read. *)
Record contract_handle : Type := { handle_address : string }.

(** The object [getContractFactory] resolves to; only [.deploy()] is called. *)
Record contract_factory : Type := { factory_deploy : settled contract_handle }.

(** The [ethers] object.  [getSighners] is [None] when the object has no
    property of that name, as reading it then gives [undefined]. *)
Record ethers_object : Type := {
  getSighners : option (settled (list string));
  getContractFactory : string -> settled contract_factory
}.

Inductive effect : Type :=
  | call_getSighners
  | call_getContractFactory (contract : string)
  | call_deploy
  | console_log (label value : string)
  | console_error (e : js_error)
  | process_exit (code : Z)
  | set_exitCode (code : Z).

Global Instance effect_eq_dec : EqDecision effect.
Proof. solve_decision. Defined.

(** An [async] body: the effects so far, and a value or the error thrown. *)
Definition script (A : Type) : Type := list effect * (A + js_error).

Global Instance script_ret : MRet script := fun A a => ([], inl a).

Global Instance script_bind : MBind script := fun A B k m =>
  match m with
  | (tr, inl a) => let (tr', r) := k a in (tr ++ tr', r)
  | (tr, inr e) => (tr, inr e)
  end.

Definition throw {A} (e : js_error) : script A := ([], inr e).

Definition emit (e : effect) : script unit := ([e], inl tt).

(** [await f(...)]: calling is an effect, a rejection is thrown. *)
Definition await {A} (called : effect) (p : settled A) : script A :=
  emit called;;
  match p with
  | Fulfilled a => mret a
  | Rejected e => throw e
  end.

(** Reading the global [ethers]. *)
Definition global_ethers (ethers : option ethers_object) : script ethers_object :=
  match ethers with
  | Some e => mret e
  | None => throw (ReferenceError "ethers")
  end.

(** [main] of scripts/deploy.js. *)
Definition main (ethers : option ethers_object) : script unit :=
  e ← global_ethers ethers;
  signers ← match getSighners e with
            | Some p => await call_getSighners p
            | None => throw (NotAFunction "ethers.getSighners")
            end;
  let deployer := head signers in
  e' ← global_ethers ethers;
  Token ← await (call_getContractFactory "Token") (getContractFactory e' "Token");
  hardhatToken ← await call_deploy (factory_deploy Token);
  emit (console_log "Contract address: " (handle_address hardhatToken)).

(** [main().then(() => process.exit(0)).catch(...)]. *)
Definition deploy_js (ethers : option ethers_object) : list effect :=
  match main ethers with
  | (tr, inl _) => tr ++ [process_exit 0]
  | (tr, inr error) => tr ++ [console_error error; process_exit 1]
  end.

(** [const { ethers } = require("hardhat")]: a missing [ethers] is bound to
    [undefined], and the error comes when a property of it is read. *)
Definition required_ethers (ethers : option ethers_object) (prop : string)
    : script ethers_object :=
  match ethers with
  | Some e => mret e
  | None => throw (PropertyOfUndefined prop)
  end.

(** [main] of the script in the tutorial text. *)
Definition readme_main (ethers : option ethers_object) : script unit :=
  e ← required_ethers ethers "getContractFactory";
  Token ← await (call_getContractFactory "Token") (getContractFactory e "Token");
  token ← await call_deploy (factory_deploy Token);
  emit (console_log "Token deployed to:" (handle_address token)).

(** [main().catch((error) => { console.error(error); process.exitCode = 1; })]. *)
Definition readme_deploy_js (ethers : option ethers_object) : list effect :=
  match readme_main ethers with
  | (tr, inl _) => tr
  | (tr, inr error) => tr ++ [console_error error; set_exitCode 1]
  end.

(** The exit code of the process: that of the first [process.exit], else the
    last [process.exitCode] set, else 0. *)
Fixpoint exit_code_from (code : Z) (tr : list effect) : Z :=
  match tr with
  | [] => code
  | process_exit c :: _ => c
  | set_exitCode c :: tr' => exit_code_from c tr'
  | _ :: tr' => exit_code_from code tr'
  end.

Definition exit_code (tr : list effect) : Z := exit_code_from 0 tr.

(** Whether the trace logs a contract address. *)
Definition logged_address (tr : list effect) : option string :=
  head (omap (fun e => match e with console_log _ v => Some v | _ => None end) tr).

(** An [ethers] object as Hardhat provides it: no [getSighners], and a
    factory whose deployment is fulfilled. *)
Definition hardhat_ethers : ethers_object :=
  {| getSighners := None;
     getContractFactory := fun _ =>
       Fulfilled {| factory_deploy := Fulfilled
         {| handle_address := "0x5FbDB2315678afecb367f032d93F642f64180aa3" |} |} |}.

End DeployScript.

Example deploy_owner :
  (call (balanceOf owner) (deploy owner)).1 = Returned 1000.
Proof. vm_compute. reflexivity. Qed.

Example transfer_50 :
  let st := (call (transfer owner addr1 50) (deploy owner)).2 in
  (call (balanceOf owner) st).1 = Returned 950 /\
  (call (balanceOf addr1) st).1 = Returned 50.
Proof. vm_compute. split; reflexivity. Qed.

(** ** The balance sum under a storage write *)

Lemma sum_balances_empty : sum_balances ∅ = 0.
Proof. apply map_fold_empty. Qed.

Lemma sum_balances_insert_fresh (m : gmap N Z) k v :
  m !! k = None -> sum_balances (<[k:=v]> m) = v + sum_balances m.
Proof.
  intros Hk. unfold sum_balances.
  rewrite map_fold_insert_L; [done | intros; lia | done].
Qed.

Lemma sum_balances_delete (m : gmap N Z) k :
  sum_balances m = slot m k + sum_balances (delete k m).
Proof.
  unfold slot. destruct (m !! k) as [v|] eqn:Hk; simpl.
  - rewrite <- (insert_delete_id m k v) at 1 by done.
    apply sum_balances_insert_fresh, lookup_delete_eq.
  - by rewrite delete_id.
Qed.

Lemma sum_balances_insert (m : gmap N Z) k v :
  sum_balances (<[k:=v]> m) = sum_balances m - slot m k + v.
Proof.
  rewrite <- insert_delete_eq.
  rewrite sum_balances_insert_fresh by apply lookup_delete_eq.
  rewrite (sum_balances_delete m k). lia.
Qed.

Lemma sum_balances_nonneg (m : gmap N Z) :
  map_Forall (fun _ v => 0 <= v) m -> 0 <= sum_balances m.
Proof.
  induction m as [|k v m Hk IH] using map_ind; intros Hm.
  - by rewrite sum_balances_empty.
  - rewrite sum_balances_insert_fresh by done.
    apply map_Forall_insert in Hm as [Hv Hm]; [|done].
    specialize (IH Hm). lia.
Qed.

Lemma slot_nonneg (m : gmap N Z) k :
  map_Forall (fun _ v => 0 <= v) m -> 0 <= slot m k.
Proof.
  intros Hm. unfold slot. destruct (m !! k) as [v|] eqn:Hk; simpl; [|lia].
  by apply (Hm k v).
Qed.

Lemma slot_le_sum (m : gmap N Z) k :
  map_Forall (fun _ v => 0 <= v) m -> slot m k <= sum_balances m.
Proof.
  intros Hm. rewrite (sum_balances_delete m k).
  assert (0 <= sum_balances (delete k m)); [|lia].
  apply sum_balances_nonneg. intros j v Hj.
  apply lookup_delete_Some in Hj as [_ Hj]. by apply (Hm j v).
Qed.

Lemma slot_insert (m : gmap N Z) k v j :
  slot (<[k:=v]> m) j = if decide (k = j) then v else slot m j.
Proof. unfold slot. rewrite lookup_insert. by case_decide. Qed.

Lemma slot_is_uint st a : wf_storage st -> is_uint (slot (balances st) a).
Proof.
  intros Hwf. unfold slot. destruct (balances st !! a) as [v|] eqn:Ha; simpl.
  - by apply (Hwf a v).
  - unfold is_uint, uint_max. lia.
Qed.

(** ** What a call to [transfer] does, case by case *)

Lemma transfer_insufficient from to amount st :
  slot (balances st) from < amount ->
  transfer from to amount st = Revert InsufficientBalance st.
Proof.
  intros Hlt. unfold transfer, mbind, exec_bind, read_balances, require.
  rewrite Z.geb_leb.
  destruct (Z.leb_spec amount (slot (balances st) from)); [lia | done].
Qed.

Lemma transfer_overflow from to amount st :
  amount <= slot (balances st) from ->
  uint_max < slot (balances (after_debit st from amount)) to + amount ->
  transfer from to amount st = Revert arithmetic_panic (after_debit st from amount).
Proof.
  intros Hle Hov.
  unfold transfer, mbind, exec_bind, read_balances, require, mret, exec_ret,
    checked_sub, checked_add, write_balances, revert.
  rewrite Z.geb_leb. destruct (Z.leb_spec amount (slot (balances st) from)); [|lia].
  destruct (Z.ltb_spec (slot (balances st) from) amount); [lia|].
  unfold mret, exec_ret. fold (after_debit st from amount).
  destruct (Z.ltb_spec uint_max
    (slot (balances (after_debit st from amount)) to + amount)); [done | lia].
Qed.

Lemma transfer_sufficient from to amount st :
  amount <= slot (balances st) from ->
  slot (balances (after_debit st from amount)) to + amount <= uint_max ->
  transfer from to amount st =
    Success tt (after_credit (after_debit st from amount) to amount).
Proof.
  intros Hle Hov.
  unfold transfer, mbind, exec_bind, read_balances, require, mret, exec_ret,
    checked_sub, checked_add, write_balances, revert.
  rewrite Z.geb_leb. destruct (Z.leb_spec amount (slot (balances st) from)); [|lia].
  destruct (Z.ltb_spec (slot (balances st) from) amount); [lia|].
  unfold mret, exec_ret. fold (after_debit st from amount).
  destruct (Z.ltb_spec uint_max
    (slot (balances (after_debit st from amount)) to + amount)); [lia | done].
Qed.

(** The three cases are all there is. *)
Lemma transfer_cases from to amount st :
  (slot (balances st) from < amount /\
   transfer from to amount st = Revert InsufficientBalance st) \/
  (amount <= slot (balances st) from /\
   uint_max < slot (balances (after_debit st from amount)) to + amount /\
   transfer from to amount st =
     Revert arithmetic_panic (after_debit st from amount)) \/
  (amount <= slot (balances st) from /\
   slot (balances (after_debit st from amount)) to + amount <= uint_max /\
   transfer from to amount st =
     Success tt (after_credit (after_debit st from amount) to amount)).
Proof.
  destruct (Z.lt_ge_cases (slot (balances st) from) amount) as [Hlt|Hge].
  - left. eauto using transfer_insufficient.
  - right.
    destruct (Z.lt_ge_cases uint_max
      (slot (balances (after_debit st from amount)) to + amount)).
    + left. eauto using transfer_overflow.
    + right. eauto using transfer_sufficient.
Qed.

Lemma slot_after_debit st from amount j :
  slot (balances (after_debit st from amount)) j =
    if decide (from = j) then slot (balances st) from - amount
    else slot (balances st) j.
Proof. unfold after_debit. simpl. apply slot_insert. Qed.

Lemma slot_after_credit st to amount j :
  slot (balances (after_credit st to amount)) j =
    if decide (to = j) then slot (balances st) to + amount
    else slot (balances st) j.
Proof. unfold after_credit. simpl. apply slot_insert. Qed.

Lemma sum_after_debit st from amount :
  sum_balances (balances (after_debit st from amount)) =
    sum_balances (balances st) - amount.
Proof. unfold after_debit. simpl. rewrite sum_balances_insert. lia. Qed.

Lemma sum_after_credit st to amount :
  sum_balances (balances (after_credit st to amount)) =
    sum_balances (balances st) + amount.
Proof. unfold after_credit. simpl. rewrite sum_balances_insert. lia. Qed.

(** ** The ledger invariant *)

Lemma deploy_storage creator :
  deploy creator = set_balances (insert creator 1000) initial_storage.
Proof. reflexivity. Qed.

Lemma wf_storage_nonneg st :
  wf_storage st -> map_Forall (fun _ v => 0 <= v) (balances st).
Proof. intros Hwf k v Hk. by destruct (Hwf k v Hk). Qed.

Lemma wf_storage_write st a v :
  wf_storage st -> is_uint v -> wf_storage (set_balances (insert a v) st).
Proof. intros Hwf Hv. unfold wf_storage. simpl. by apply map_Forall_insert_2. Qed.

Lemma ledger_inv_deploy creator : ledger_inv (deploy creator).
Proof.
  rewrite deploy_storage. split; [|split; [|done]]; simpl.
  - apply wf_storage_write; [apply map_Forall_empty|].
    unfold is_uint, uint_max. lia.
  - rewrite sum_balances_insert_fresh by apply lookup_empty.
    rewrite sum_balances_empty. lia.
Qed.

Lemma wf_storage_deploy creator : wf_storage (deploy creator).
Proof. apply ledger_inv_deploy. Qed.

Lemma wf_after_debit st from amount :
  wf_storage st -> 0 <= amount -> amount <= slot (balances st) from ->
  wf_storage (after_debit st from amount).
Proof.
  intros Hwf H0 Hle. apply wf_storage_write; [done|].
  pose proof (slot_is_uint st from Hwf) as [? ?]. unfold is_uint. lia.
Qed.

(** In a ledger state the credit cannot overflow: the recipient holds at most
    what is left of the supply after the debit. *)
Lemma ledger_credit_fits st from to amount :
  ledger_inv st -> 0 <= amount -> amount <= slot (balances st) from ->
  slot (balances (after_debit st from amount)) to + amount <= 1000.
Proof.
  intros (Hwf & Hsum & Hsupply) H0 Hle.
  pose proof (wf_after_debit st from amount Hwf H0 Hle) as Hwf'.
  pose proof (slot_le_sum _ to (wf_storage_nonneg _ Hwf')) as Hto.
  rewrite sum_after_debit in Hto. lia.
Qed.

Lemma ledger_transfer st from to amount :
  ledger_inv st -> 0 <= amount ->
  (slot (balances st) from < amount /\
   transfer from to amount st = Revert InsufficientBalance st) \/
  (amount <= slot (balances st) from /\
   transfer from to amount st =
     Success tt (after_credit (after_debit st from amount) to amount)).
Proof.
  intros Hinv H0.
  destruct (transfer_cases from to amount st) as [[? ?]|[(Hle & Hov & _)|(? & _ & ?)]];
    [by left| |by right].
  pose proof (ledger_credit_fits st from to amount Hinv H0 Hle).
  unfold uint_max in Hov. lia.
Qed.

Lemma ledger_inv_transfer st from to amount :
  ledger_inv st -> 0 <= amount -> amount <= slot (balances st) from ->
  ledger_inv (after_credit (after_debit st from amount) to amount).
Proof.
  intros Hinv H0 Hle.
  pose proof (ledger_credit_fits st from to amount Hinv H0 Hle) as Hfit.
  destruct Hinv as (Hwf & Hsum & Hsupply).
  pose proof (wf_after_debit st from amount Hwf H0 Hle) as Hwf'.
  split; [|split; [|done]].
  - apply wf_storage_write; [done|].
    pose proof (slot_is_uint _ to Hwf') as [? ?].
    unfold is_uint, uint_max. lia.
  - rewrite sum_after_credit, sum_after_debit. simpl. lia.
Qed.

Lemma ledger_inv_exec_tx st t : ledger_inv st -> wf_tx t -> ledger_inv (exec_tx st t).
Proof.
  intros Hinv Ht. destruct t as [from to amount|account]; simpl; [|done].
  destruct Ht as [H0 _].
  destruct (ledger_transfer st from to amount Hinv H0) as [[_ E]|[Hle E]];
    unfold call; rewrite E; simpl; [done|].
  by apply ledger_inv_transfer.
Qed.

Lemma reachable_inv creator st : reachable creator st -> ledger_inv st.
Proof.
  induction 1 as [|st t _ IH Ht].
  - apply ledger_inv_deploy.
  - by apply ledger_inv_exec_tx.
Qed.

Lemma run_snoc txs t st : run (txs ++ [t]) st = exec_tx (run txs st) t.
Proof. unfold run. by rewrite foldl_snoc. Qed.

Lemma reachable_run creator txs :
  Forall wf_tx txs -> reachable creator (run txs (deploy creator)).
Proof.
  induction txs as [|t txs IH] using rev_ind; intros Hwf.
  - apply reachable_deploy.
  - apply Forall_app in Hwf as [Htxs Ht]. rewrite run_snoc.
    apply reachable_tx; [by apply IH | by inversion Ht].
Qed.

Lemma run_reachable creator st :
  reachable creator st ->
  exists txs, Forall wf_tx txs /\ st = run txs (deploy creator).
Proof.
  induction 1 as [|st t _ (txs & Htxs & ->) Ht].
  - by exists [].
  - exists (txs ++ [t]). split; [|by rewrite run_snoc].
    apply Forall_app. auto.
Qed.

(** ** Calls to [transfer] *)

Lemma call_transfer_returned st from to amount st' :
  call (transfer from to amount) st = (Returned tt, st') ->
  amount <= slot (balances st) from /\
  st' = after_credit (after_debit st from amount) to amount.
Proof.
  unfold call.
  destruct (transfer_cases from to amount st)
    as [[_ E]|[(_ & _ & E)|(Hle & _ & E)]]; rewrite E; intros [= <-]; done.
Qed.

Lemma call_transfer_reverted {A} (body : exec A) st r :
  (call body st).1 = Reverted r -> (call body st).2 = st.
Proof. unfold call. by destruct (body st). Qed.

Lemma call_transfer_ledger st from to amount :
  ledger_inv st -> 0 <= amount ->
  (slot (balances st) from < amount /\
   call (transfer from to amount) st = (Reverted InsufficientBalance, st)) \/
  (amount <= slot (balances st) from /\
   call (transfer from to amount) st =
     (Returned tt, after_credit (after_debit st from amount) to amount)).
Proof.
  intros Hinv H0. unfold call.
  destruct (ledger_transfer st from to amount Hinv H0) as [[? E]|[? E]];
    rewrite E; auto.
Qed.

Lemma totalSupply_exec_tx st t : totalSupply (exec_tx st t) = totalSupply st.
Proof.
  destruct t as [from to amount|account]; simpl; [|done]. unfold call.
  destruct (transfer_cases from to amount st)
    as [[_ E]|[(_ & _ & E)|(_ & _ & E)]]; by rewrite E.
Qed.

Lemma slot_after_transfer st from to amount c :
  slot (balances (after_credit (after_debit st from amount) to amount)) c =
    if decide (to = c)
    then (if decide (from = to) then slot (balances st) to
          else slot (balances st) to + amount)
    else if decide (from = c) then slot (balances st) from - amount
    else slot (balances st) c.
Proof.
  rewrite slot_after_credit, !slot_after_debit.
  repeat case_decide; subst; try done; lia.
Qed.

(** Outside the ledger states the credit can overflow: the checked [+=]
    then panics after the debit was written, and the call rolls it back. *)
Example credit_overflow_outside_ledger :
  let st := set_balances (fun _ => {[1%N := uint_max; 2%N := 1]}) initial_storage in
  transfer 2%N 1%N 1 st = Revert arithmetic_panic (after_debit st 2%N 1) /\
  call (transfer 2%N 1%N 1) st = (Reverted arithmetic_panic, st).
Proof. split; vm_compute; reflexivity. Qed.

(** ** The ledger properties *)

(** C1. Conservation: after a deployment and any sequence of calls, and after
    every call on the way (every prefix of the sequence), the sum of all
    stored balances is the [totalSupply] fixed at construction. *)
Theorem conservation creator txs n :
  Forall wf_tx txs ->
  sum_balances (balances (run (take n txs) (deploy creator)))
    = totalSupply (deploy creator).
Proof.
  intros Hwf.
  assert (reachable creator (run (take n txs) (deploy creator))) as Hr
    by (by apply reachable_run, Forall_take).
  apply reachable_inv in Hr as (_ & Hsum & Hsupply).
  rewrite Hsum, Hsupply. reflexivity.
Qed.

Lemma conservation_witness :
  sum_balances (balances (run
    (take 2 [TxTransfer owner addr1 50; TxTransfer addr1 addr2 100;
             TxTransfer addr1 owner 20])
    (deploy owner))) = totalSupply (deploy owner).
Proof.
  apply (conservation owner
    [TxTransfer owner addr1 50; TxTransfer addr1 addr2 100;
     TxTransfer addr1 owner 20] 2).
  repeat constructor; unfold uint_max; lia.
Defined.

(** C2. In a ledger state, [transfer] reverts with the insufficient-balance
    error exactly when the sender holds less than [amount]; it reverts for no
    other reason; and a reverted call has written nothing: the storage at the
    point of the revert, and the storage after the call, are the storage
    before it, so every balance is as it was. *)
Theorem transfer_fails_iff_insufficient creator txs from to amount :
  Forall wf_tx txs -> is_uint amount ->
  let st := run txs (deploy creator) in
  ((call (transfer from to amount) st).1 = Reverted InsufficientBalance
     <-> slot (balances st) from < amount) /\
  (forall r, (call (transfer from to amount) st).1 = Reverted r ->
     r = InsufficientBalance) /\
  (forall r st', transfer from to amount st = Revert r st' -> st' = st) /\
  (forall r, (call (transfer from to amount) st).1 = Reverted r ->
     (call (transfer from to amount) st).2 = st /\
     forall a, (call (balanceOf a) (call (transfer from to amount) st).2).1
               = (call (balanceOf a) st).1).
Proof.
  intros Hwf [H0 _] st.
  pose proof (reachable_inv creator st (reachable_run creator txs Hwf)) as Hinv.
  destruct (ledger_transfer st from to amount Hinv H0) as [[Hlt E]|[Hle E]];
    unfold call; rewrite E; simpl.
  - repeat split; try done.
    + by intros r [= <-].
    + by intros r st' [= _ <-].
  - repeat split; try done. lia.
Qed.

Lemma transfer_fails_iff_insufficient_witness :
  (call (transfer addr1 addr2 100)
     (run [TxTransfer owner addr1 50] (deploy owner))).1
    = Reverted InsufficientBalance.
Proof.
  apply (transfer_fails_iff_insufficient owner [TxTransfer owner addr1 50]
           addr1 addr2 100).
  - repeat constructor; unfold uint_max; lia.
  - unfold is_uint, uint_max; lia.
  - vm_compute. reflexivity.
Defined.

(** C3. A call to [transfer] that returns, made where the sender holds at
    least [amount], leaves the sender with [amount] less and the recipient
    with [amount] more, and both unchanged when they are the same account.
    In the tutorial's scenario: after deployment by [creator], sending 50 to
    another account [recipient] returns and leaves 950 and 50; [recipient]
    sending 100 then reverts with the insufficient-balance error and still
    holds 50. *)
Theorem transfer_moves_amount :
  (forall st from to amount st',
     amount <= slot (balances st) from ->
     call (transfer from to amount) st = (Returned tt, st') ->
     slot (balances st') from =
       (if decide (from = to) then slot (balances st) from
        else slot (balances st) from - amount) /\
     slot (balances st') to =
       (if decide (from = to) then slot (balances st) to
        else slot (balances st) to + amount)) /\
  (forall creator recipient other,
     creator <> recipient ->
     let st0 := deploy creator in
     let st1 := (call (transfer creator recipient 50) st0).2 in
     let st2 := (call (transfer recipient other 100) st1).2 in
     totalSupply st0 = 1000 /\
     (call (balanceOf creator) st0).1 = Returned 1000 /\
     (call (transfer creator recipient 50) st0).1 = Returned tt /\
     (call (balanceOf creator) st1).1 = Returned 950 /\
     (call (balanceOf recipient) st1).1 = Returned 50 /\
     (call (transfer recipient other 100) st1).1 = Reverted InsufficientBalance /\
     (call (balanceOf recipient) st2).1 = Returned 50).
Proof.
  split.
  - intros st from to amount st' _ Hcall.
    apply call_transfer_returned in Hcall as [_ ->].
    rewrite !slot_after_transfer.
    repeat case_decide; subst; try done.
  - intros creator recipient other Hne st0.
    pose proof (ledger_inv_deploy creator) as Hinv0. fold st0 in Hinv0.
    assert (slot (balances st0) creator = 1000) as Hc0.
    { unfold st0. rewrite deploy_storage. simpl. rewrite slot_insert.
      by case_decide. }
    destruct (call_transfer_ledger st0 creator recipient 50 Hinv0 ltac:(lia))
      as [[Hlt _]|[Hle E1]]; [lia|].
    cbv zeta. rewrite E1. cbn [fst snd].
    set (st1 := after_credit (after_debit st0 creator 50) recipient 50).
    assert (ledger_inv st1) as Hinv1 by (apply ledger_inv_transfer; [done|lia|lia]).
    assert (slot (balances st1) creator = 950) as Hc1.
    { unfold st1. rewrite slot_after_transfer, Hc0.
      repeat case_decide; subst; try done. }
    assert (slot (balances st1) recipient = 50) as Hr1.
    { unfold st1. rewrite slot_after_transfer.
      repeat case_decide; subst; try done.
      unfold st0. rewrite deploy_storage. simpl. rewrite slot_insert.
      by case_decide. }
    destruct (call_transfer_ledger st1 recipient other 100 Hinv1 ltac:(lia))
      as [[_ E2]|[Hle2 _]]; [|lia].
    rewrite E2. unfold call, balanceOf, read_balances.
    cbn [fst snd]. by rewrite Hc0, Hc1, Hr1.
Qed.

Lemma transfer_moves_amount_witness :
  slot (balances (call (transfer owner addr1 50) (deploy owner)).2) owner
    = 1000 - 50 /\
  (call (transfer addr1 addr2 100)
     (call (transfer owner addr1 50) (deploy owner)).2).1
    = Reverted InsufficientBalance.
Proof.
  destruct transfer_moves_amount as [Hmove Hscenario]. split.
  - destruct (Hmove (deploy owner) owner addr1 50
               (call (transfer owner addr1 50) (deploy owner)).2) as [Hfrom _].
    + vm_compute. discriminate.
    + vm_compute. reflexivity.
    + rewrite Hfrom. vm_compute. reflexivity.
  - apply (Hscenario owner addr1 addr2). vm_compute. discriminate.
Defined.

(** C4. Non-negativity: in every state reached from a deployment by any calls,
    no stored balance is negative, and [balanceOf] returns a non-negative
    value for every account. *)
Theorem balances_nonneg creator txs :
  Forall wf_tx txs ->
  let st := run txs (deploy creator) in
  map_Forall (fun _ v => 0 <= v) (balances st) /\
  forall a, exists v, (call (balanceOf a) st).1 = Returned v /\ 0 <= v.
Proof.
  intros Hwf st.
  pose proof (reachable_inv creator st (reachable_run creator txs Hwf))
    as (Hst & _).
  apply wf_storage_nonneg in Hst. split; [done|].
  intros a. exists (slot (balances st) a). split; [done|].
  by apply slot_nonneg.
Qed.

Lemma balances_nonneg_witness :
  map_Forall (fun _ v => 0 <= v)
    (balances (run [TxTransfer owner addr1 50; TxTransfer addr1 addr2 100]
                 (deploy owner))).
Proof.
  apply (balances_nonneg owner
           [TxTransfer owner addr1 50; TxTransfer addr1 addr2 100]).
  repeat constructor; unfold uint_max; lia.
Defined.

(** C5. [totalSupply] is set at construction to the constant 1000, and no call
    to [transfer] or [balanceOf], returning or reverting, changes it; so it
    has that value after any sequence of calls. *)
Theorem totalSupply_constant :
  (forall creator, totalSupply (deploy creator) = 1000) /\
  (forall st from to amount,
     totalSupply (call (transfer from to amount) st).2 = totalSupply st) /\
  (forall st account,
     totalSupply (call (balanceOf account) st).2 = totalSupply st) /\
  (forall creator txs, totalSupply (run txs (deploy creator)) = 1000).
Proof.
  split; [done|]. split; [|split].
  - intros st from to amount.
    apply (totalSupply_exec_tx st (TxTransfer from to amount)).
  - done.
  - intros creator txs. induction txs as [|t txs IH] using rev_ind; [done|].
    by rewrite run_snoc, totalSupply_exec_tx.
Qed.

(** C6. [balanceOf] is a pure read: on every storage and for every account it
    returns, without reverting, the stored balance, or zero when the account
    has no entry, and it leaves the storage as it was. *)
Theorem balanceOf_pure_read st account :
  balanceOf account st =
    Success (match balances st !! account with Some v => v | None => 0 end) st
  /\
  call (balanceOf account) st =
    (Returned (match balances st !! account with Some v => v | None => 0 end),
     st).
Proof.
  unfold call, balanceOf, read_balances, slot.
  by destruct (balances st !! account).
Qed.

(** C7. Construction by [creator] does not revert and yields a ledger whose
    [totalSupply] is the constant 1000 and whose balance map has exactly one
    entry, [creator] with [totalSupply], which is not zero; every other
    account reads as zero. *)
Theorem deploy_credits_creator creator :
  constructor creator initial_storage = Success tt (deploy creator) /\
  totalSupply (deploy creator) = 1000 /\
  balances (deploy creator) = {[creator := totalSupply (deploy creator)]} /\
  totalSupply (deploy creator) <> 0 /\
  forall a, (call (balanceOf a) (deploy creator)).1 =
              Returned (if decide (a = creator) then totalSupply (deploy creator)
                        else 0).
Proof.
  repeat split; try done.
  intros a. unfold call, balanceOf, read_balances. simpl.
  rewrite slot_insert. repeat case_decide; subst; done.
Qed.

(** C8. Self-transfer: on any storage of [uint] balances, when [a] holds at
    least [amount] the call [transfer(a, amount)] sent by [a] returns and
    every balance, that of [a] included, reads as before; the [require] is
    still checked against the balance before the call, so when [a] holds less
    the call reverts with the insufficient-balance error. *)
Theorem self_transfer_unchanged st a amount :
  wf_storage st ->
  (amount <= slot (balances st) a ->
     (call (transfer a a amount) st).1 = Returned tt /\
     forall c, (call (balanceOf c) (call (transfer a a amount) st).2).1
               = (call (balanceOf c) st).1) /\
  (slot (balances st) a < amount ->
     call (transfer a a amount) st = (Reverted InsufficientBalance, st)).
Proof.
  intros Hwf. split.
  - intros Hle. unfold call at 1 3.
    rewrite transfer_sufficient; [|done|].
    + cbn [fst snd]. split; [done|]. intros c.
      unfold call, balanceOf, read_balances. cbn [fst].
      rewrite slot_after_transfer. by repeat case_decide; subst.
    + rewrite slot_after_debit. case_decide; [|done].
      destruct (slot_is_uint st a Hwf). lia.
  - intros Hlt. unfold call. by rewrite transfer_insufficient.
Qed.

Lemma self_transfer_unchanged_witness :
  (call (transfer owner owner 1000) (deploy owner)).1 = Returned tt /\
  (call (balanceOf owner)
     (call (transfer owner owner 1000) (deploy owner)).2).1 = Returned 1000 /\
  call (transfer owner owner 1001) (deploy owner)
    = (Reverted InsufficientBalance, deploy owner).
Proof.
  pose proof (wf_storage_deploy owner) as Hwf.
  destruct (self_transfer_unchanged (deploy owner) owner 1000 Hwf) as [Hok _].
  destruct (self_transfer_unchanged (deploy owner) owner 1001 Hwf) as [_ Hrev].
  destruct Hok as [Hret Hbal]; [vm_compute; discriminate|].
  split; [exact Hret|]. split.
  - rewrite Hbal. vm_compute. reflexivity.
  - apply Hrev. vm_compute. reflexivity.
Defined.

(** C9. Zero amount: on any storage of [uint] balances and for any sender [a]
    and recipient [b], also when [a] holds nothing, [transfer(b, 0)] sent by
    [a] returns and every balance reads as before. *)
Theorem zero_transfer_noop st a b :
  wf_storage st ->
  (call (transfer a b 0) st).1 = Returned tt /\
  forall c, (call (balanceOf c) (call (transfer a b 0) st).2).1
            = (call (balanceOf c) st).1.
Proof.
  intros Hwf.
  destruct (slot_is_uint st a Hwf) as [Ha _].
  destruct (slot_is_uint st b Hwf) as [_ Hb].
  unfold call at 1 3. rewrite transfer_sufficient; [|done|].
  - cbn [fst snd]. split; [done|]. intros c.
    unfold call, balanceOf, read_balances. cbn [fst].
    rewrite slot_after_transfer.
    repeat case_decide; subst; try done; f_equal; lia.
  - rewrite slot_after_debit. case_decide; subst; lia.
Qed.

Lemma zero_transfer_noop_witness :
  (call (transfer addr1 addr2 0) (deploy owner)).1 = Returned tt /\
  (call (balanceOf addr1) (deploy owner)).1 = Returned 0.
Proof.
  pose proof (wf_storage_deploy owner) as Hwf.
  split.
  - apply (zero_transfer_noop (deploy owner) addr1 addr2 Hwf).
  - vm_compute. reflexivity.
Defined.

(** C10. Frame: a call to [transfer] that returns changes at most the balances
    of the sender and of the recipient; every account other than these two
    has the same stored entry, and reads the same balance, as before. *)
Theorem transfer_frame st from to amount st' c :
  call (transfer from to amount) st = (Returned tt, st') ->
  c <> from -> c <> to ->
  balances st' !! c = balances st !! c /\
  (call (balanceOf c) st').1 = (call (balanceOf c) st).1.
Proof.
  intros Hcall Hfrom Hto.
  apply call_transfer_returned in Hcall as [_ ->].
  assert (balances (after_credit (after_debit st from amount) to amount) !! c
          = balances st !! c) as E.
  { simpl. by rewrite !lookup_insert_ne. }
  split; [done|].
  unfold call, balanceOf, read_balances, slot. cbn [fst]. by rewrite E.
Qed.

Lemma transfer_frame_witness :
  (call (balanceOf addr2) (call (transfer owner addr1 50) (deploy owner)).2).1
    = (call (balanceOf addr2) (deploy owner)).1.
Proof.
  apply (transfer_frame (deploy owner) owner addr1 50
           (call (transfer owner addr1 50) (deploy owner)).2 addr2).
  - vm_compute. reflexivity.
  - vm_compute. discriminate.
  - vm_compute. discriminate.
Defined.

(** ** Further properties of the contract *)

(** The outcome of a call, as one expression over the storage before it. *)
Lemma call_transfer_spec st from to amount :
  call (transfer from to amount) st =
    if decide (slot (balances st) from < amount)
    then (Reverted InsufficientBalance, st)
    else if decide (uint_max < slot (balances (after_debit st from amount)) to + amount)
    then (Reverted arithmetic_panic, st)
    else (Returned tt, after_credit (after_debit st from amount) to amount).
Proof.
  unfold call.
  destruct (transfer_cases from to amount st)
    as [[? E]|[(? & ? & E)|(? & ? & E)]]; rewrite E;
    repeat case_decide; try done; lia.
Qed.

(** X1. In every state reached from a deployment no account holds more than
    the total supply: every balance lies between 0 and [totalSupply]. *)
Theorem balance_le_totalSupply creator txs a :
  Forall wf_tx txs ->
  0 <= slot (balances (run txs (deploy creator))) a
    <= totalSupply (run txs (deploy creator)).
Proof.
  intros Hwf.
  pose proof (reachable_inv creator _ (reachable_run creator txs Hwf))
    as (Hst & Hsum & _).
  apply wf_storage_nonneg in Hst. rewrite <- Hsum.
  split; [by apply slot_nonneg | by apply slot_le_sum].
Qed.

Lemma balance_le_totalSupply_witness :
  0 <= slot (balances (run [TxTransfer owner addr1 50] (deploy owner))) addr1
    <= totalSupply (run [TxTransfer owner addr1 50] (deploy owner)).
Proof.
  apply (balance_le_totalSupply owner [TxTransfer owner addr1 50] addr1).
  repeat constructor; unfold uint_max; lia.
Defined.

(** X2. On any storage of [uint] balances and for any [uint] amount, a call
    to [transfer] has one of three outcomes, each decided by the balances
    before it: the insufficient-balance error when the sender holds less than
    [amount]; an arithmetic panic when the sender holds enough, the recipient
    is another account and its balance plus [amount] exceeds the largest
    [uint]; a return otherwise.  After a panic the storage is as before the
    call, although the body had already written the debit. *)
Theorem transfer_outcomes st from to amount :
  wf_storage st -> is_uint amount ->
  ((call (transfer from to amount) st).1 = Reverted InsufficientBalance
     <-> slot (balances st) from < amount) /\
  ((call (transfer from to amount) st).1 = Reverted arithmetic_panic
     <-> amount <= slot (balances st) from /\ from <> to /\
         uint_max < slot (balances st) to + amount) /\
  ((call (transfer from to amount) st).1 = Returned tt
     <-> amount <= slot (balances st) from /\
         (from = to \/ slot (balances st) to + amount <= uint_max)) /\
  ((call (transfer from to amount) st).1 = Reverted arithmetic_panic ->
     transfer from to amount st
       = Revert arithmetic_panic (after_debit st from amount) /\
     (call (transfer from to amount) st).2 = st).
Proof.
  intros Hwf [H0 Hmax].
  destruct (slot_is_uint st from Hwf) as [_ Hfrom].
  assert (transfer from to amount st
            = Revert arithmetic_panic (after_debit st from amount)
          \/ (call (transfer from to amount) st).1 <> Reverted arithmetic_panic)
    as Hbody.
  { destruct (transfer_cases from to amount st)
      as [[? E]|[(? & ? & E)|(? & ? & E)]].
    - right. unfold call. by rewrite E.
    - by left.
    - right. unfold call. by rewrite E. }
  rewrite call_transfer_spec, slot_after_debit in Hbody |- *.
  destruct Hbody as [Hbody|Hbody];
    repeat case_decide; subst; cbn [fst snd] in Hbody |- *;
    (split; [|split; [|split]]); try (split; intros); try done; try lia;
    try (split; [lia|]); try (split; [done|lia]); try (right; lia); try (by left).
Qed.

Lemma transfer_outcomes_witness :
  let st := set_balances (fun _ => {[1%N := uint_max; 2%N := 1]}) initial_storage in
  (call (transfer 2%N 1%N 1) st).1 = Reverted arithmetic_panic.
Proof.
  intros st.
  apply (transfer_outcomes st 2%N 1%N 1).
  - apply map_Forall_insert_2; [|apply map_Forall_singleton];
      unfold is_uint, uint_max; lia.
  - unfold is_uint, uint_max. lia.
  - vm_compute. repeat split; discriminate.
Defined.

(** X3. Round trip: on any storage of [uint] balances, when a transfer of a
    non-negative [amount] from [a] to [b] returns, the transfer of the same
    amount back from [b] to [a] returns as well, and every balance then reads
    as it did at the start. *)
Theorem transfer_round_trip st a b amount st1 :
  wf_storage st -> 0 <= amount ->
  call (transfer a b amount) st = (Returned tt, st1) ->
  exists st2,
    call (transfer b a amount) st1 = (Returned tt, st2) /\
    forall c, slot (balances st2) c = slot (balances st) c.
Proof.
  intros Hwf H0 Hcall.
  apply call_transfer_returned in Hcall as [Hle ->].
  destruct (slot_is_uint st a Hwf) as [_ Ha].
  destruct (slot_is_uint st b Hwf) as [Hb _].
  exists (after_credit (after_debit
    (after_credit (after_debit st a amount) b amount) b amount) a amount).
  split.
  - rewrite call_transfer_spec, slot_after_debit, !slot_after_transfer.
    repeat case_decide; subst; try done; lia.
  - intros c. rewrite !slot_after_transfer.
    repeat case_decide; subst; try done; lia.
Qed.

Lemma transfer_round_trip_witness :
  exists st2,
    call (transfer addr1 owner 50) (call (transfer owner addr1 50) (deploy owner)).2
      = (Returned tt, st2) /\
    forall c, slot (balances st2) c = slot (balances (deploy owner)) c.
Proof.
  apply (transfer_round_trip (deploy owner) owner addr1 50).
  - apply wf_storage_deploy.
  - lia.
  - vm_compute. reflexivity.
Defined.

(** X4. Splitting: on any storage of [uint] balances, when one transfer of
    [x + y] from [a] to [b] returns (with [x] and [y] non-negative), the
    transfer of [x] followed by the transfer of [y] both return, and they leave
    exactly the storage that the single transfer leaves. *)
Theorem transfer_split st a b x y st' :
  wf_storage st -> 0 <= x -> 0 <= y ->
  call (transfer a b (x + y)) st = (Returned tt, st') ->
  exists st1,
    call (transfer a b x) st = (Returned tt, st1) /\
    call (transfer a b y) st1 = (Returned tt, st').
Proof.
  intros Hwf Hx Hy Hcall.
  pose proof Hcall as Hspec. rewrite call_transfer_spec, slot_after_debit in Hspec.
  apply call_transfer_returned in Hcall as [Hle ->].
  destruct (slot_is_uint st a Hwf) as [_ Ha].
  destruct (slot_is_uint st b Hwf) as [Hb _].
  exists (after_credit (after_debit st a x) b x). split.
  - rewrite call_transfer_spec, slot_after_debit.
    repeat case_decide; subst; try done; lia.
  - rewrite call_transfer_spec, slot_after_debit, !slot_after_transfer.
    repeat case_decide; subst; try done; try lia.
    + f_equal. unfold after_credit, after_debit, set_balances. simpl. f_equal.
      apply map_eq. intros k. unfold slot.
      rewrite !lookup_insert. repeat case_decide; subst; simpl; try done;
        f_equal; lia.
    + f_equal. unfold after_credit, after_debit, set_balances. simpl. f_equal.
      apply map_eq. intros k. unfold slot.
      rewrite !lookup_insert. repeat case_decide; subst; simpl; try done;
        rewrite ?lookup_insert; repeat case_decide; simpl; try done;
        f_equal; lia.
Qed.

Lemma transfer_split_witness :
  exists st1,
    call (transfer owner addr1 30) (deploy owner) = (Returned tt, st1) /\
    call (transfer owner addr1 20) st1
      = (Returned tt, (call (transfer owner addr1 (30 + 20)) (deploy owner)).2).
Proof.
  apply (transfer_split (deploy owner) owner addr1 30 20).
  - apply wf_storage_deploy.
  - lia.
  - lia.
  - vm_compute. reflexivity.
Defined.

(** X5. Only the sender pays: for a non-negative [amount], a call to
    [transfer], whether it returns or reverts, lowers the balance of no
    account other than its sender, and never raises the sender's own. *)
Theorem only_sender_pays st from to amount c :
  0 <= amount ->
  (c <> from ->
     slot (balances st) c
       <= slot (balances (call (transfer from to amount) st).2) c) /\
  slot (balances (call (transfer from to amount) st).2) from
    <= slot (balances st) from.
Proof.
  intros H0. rewrite call_transfer_spec.
  repeat case_decide; cbn [snd]; rewrite ?slot_after_transfer;
    (split; [intros Hc|]); repeat case_decide; subst; try done; lia.
Qed.

Lemma only_sender_pays_witness :
  slot (balances (deploy owner)) addr1
    <= slot (balances (call (transfer owner addr1 50) (deploy owner)).2) addr1.
Proof.
  destruct (only_sender_pays (deploy owner) owner addr1 50 addr1) as [Hc _];
    [lia|].
  apply Hc. vm_compute. discriminate.
Defined.

(** X6. Tokens come only from the creator or from a transfer: after a
    deployment and any calls, an account that is not the creator and that no
    transfer of the sequence names as its recipient holds nothing. *)
Theorem unpaid_account_holds_nothing creator txs a :
  Forall wf_tx txs -> a <> creator ->
  Forall (fun t => ~ pays a t) txs ->
  slot (balances (run txs (deploy creator))) a = 0.
Proof.
  intros Hwf Hne. induction txs as [|t txs IH] using rev_ind; intros Hpay.
  - rewrite deploy_storage. simpl. rewrite slot_insert. by case_decide.
  - apply Forall_app in Hwf as [Hwf Ht], Hpay as [Hpay Hpt].
    inversion_clear Ht as [|? ? Ht' _]. inversion_clear Hpt as [|? ? Hpt' _].
    specialize (IH Hwf Hpay).
    rewrite run_snoc.
    destruct t as [from to amount|account]; simpl in *; [|done].
    destruct Ht' as [H0 _].
    rewrite call_transfer_spec.
    repeat case_decide; cbn [snd]; rewrite ?slot_after_transfer;
      repeat case_decide; subst; try done; lia.
Qed.

Lemma unpaid_account_holds_nothing_witness :
  slot (balances (run [TxTransfer owner addr1 50; TxTransfer addr2 owner 0]
                    (deploy owner))) addr2 = 0.
Proof.
  apply (unpaid_account_holds_nothing owner
           [TxTransfer owner addr1 50; TxTransfer addr2 owner 0] addr2).
  - repeat constructor; unfold uint_max; lia.
  - vm_compute. discriminate.
  - repeat constructor; vm_compute; discriminate.
Defined.

(** X7. The getters [name()] and [symbol()] return "Hardhat Token" and "HHT"
    after a deployment and any sequence of calls, whatever their arguments,
    and [totalSupply()] returns 1000; none of the three changes the storage. *)
Theorem metadata_constant creator txs :
  let st := run txs (deploy creator) in
  call get_name st = (Returned "Hardhat Token"%string, st) /\
  call get_symbol st = (Returned "HHT"%string, st) /\
  call get_totalSupply st = (Returned 1000, st).
Proof.
  induction txs as [|t txs IH] using rev_ind; [done|].
  rewrite run_snoc. cbv zeta in *.
  destruct IH as (Hn & Hs & Ht).
  unfold call, get_name, get_symbol, get_totalSupply, read_totalSupply in *.
  injection Hn as Hn. injection Hs as Hs. injection Ht as Ht.
  destruct t as [from to amount|account]; simpl; [|by rewrite Hn, Hs, Ht].
  rewrite call_transfer_spec.
  repeat case_decide; cbn [snd]; simpl; by rewrite Hn, Hs, Ht.
Qed.

(** X8. Every call to [transfer], on any storage and with any arguments,
    leaves the sum of the stored balances as it was: a returning call moves
    [amount] between two entries and a reverting call writes nothing. *)
Theorem transfer_keeps_sum st from to amount :
  sum_balances (balances (call (transfer from to amount) st).2)
    = sum_balances (balances st).
Proof.
  rewrite call_transfer_spec.
  repeat case_decide; cbn [snd]; try done.
  rewrite sum_after_credit, sum_after_debit. lia.
Qed.

(** Two storages with the same fields are the same storage. *)
Lemma storage_eq st1 st2 :
  name st1 = name st2 -> symbol st1 = symbol st2 ->
  totalSupply st1 = totalSupply st2 ->
  (forall k, balances st1 !! k = balances st2 !! k) ->
  st1 = st2.
Proof.
  destruct st1, st2. simpl. intros -> -> -> Hb. f_equal. by apply map_eq.
Qed.

Lemma lookup_after_transfer st from to amount k :
  balances (after_credit (after_debit st from amount) to amount) !! k =
    if decide (to = k)
    then Some (slot (balances (after_debit st from amount)) to + amount)
    else if decide (from = k) then Some (slot (balances st) from - amount)
    else balances st !! k.
Proof.
  unfold after_credit, after_debit. simpl.
  rewrite !lookup_insert. by repeat case_decide.
Qed.

(** X9. Transfers between disjoint pairs of accounts commute: when neither
    the sender nor the recipient of one is the sender or the recipient of the
    other, the two calls made in either order leave the same storage, and each
    has the outcome it would have had alone.  This holds on every storage,
    whether the calls return or revert. *)
Theorem disjoint_transfers_commute st a b x c d y :
  a <> c -> a <> d -> b <> c -> b <> d ->
  run [TxTransfer a b x; TxTransfer c d y] st
    = run [TxTransfer c d y; TxTransfer a b x] st /\
  (call (transfer a b x) (call (transfer c d y) st).2).1
    = (call (transfer a b x) st).1 /\
  (call (transfer c d y) (call (transfer a b x) st).2).1
    = (call (transfer c d y) st).1.
Proof.
  intros Hac Had Hbc Hbd. unfold run. simpl.
  rewrite (call_transfer_spec st a b x), (call_transfer_spec st c d y).
  rewrite !slot_after_debit.
  repeat case_decide; cbn [fst snd];
    rewrite !call_transfer_spec, ?slot_after_debit, ?slot_after_transfer;
    repeat case_decide; subst; cbn [fst snd]; try done; try lia.
  all: split; [|done].
  all: apply storage_eq; try done; intros k.
  all: rewrite !lookup_after_transfer, ?slot_after_debit, ?slot_after_transfer.
  all: repeat case_decide; subst; try done.
Qed.

Lemma disjoint_transfers_commute_witness :
  run [TxTransfer owner addr1 50; TxTransfer addr2 3%N 7] (deploy owner)
    = run [TxTransfer addr2 3%N 7; TxTransfer owner addr1 50] (deploy owner).
Proof.
  apply (disjoint_transfers_commute (deploy owner) owner addr1 50 addr2 3%N 7);
    vm_compute; discriminate.
Defined.

(** ** The deploy scripts *)

Import DeployScript.

(** Every way the environment can settle the awaited calls of a script whose
    definitions have been unfolded. *)
Ltac settle ethers :=
  let gs := fresh "gs" in
  let gcf := fresh "gcf" in
  let E := fresh "E" in
  destruct ethers as [[gs gcf]|];
    [destruct gs as [[?|?]|]; simpl;
     (destruct (gcf "Token"%string) as [[[?|?]]|?] eqn:E)|];
    simpl; try rewrite !E; simpl.

Ltac in_trace := rewrite ?elem_of_cons, ?elem_of_nil; auto 10.

Ltac not_in_trace :=
  let H := fresh "H" in
  intros ? H; rewrite ?elem_of_cons, ?elem_of_nil in H;
  repeat (destruct H as [H|H]; [discriminate H|]); exact H.




